(** * namegen: a shallow embedding of [include/namegen/namegen.hpp]

    The pattern interpreter [namegen::generate] and its helpers
    [get_tokens], [get_rand], [pick_random_element], [capitalize_and_clear],
    [process_token] and [process_character], with the option state
    [option_t] threaded explicitly. *)

From Stdlib Require Import ZArith List String Ascii Bool Lia.
Import ListNotations.
Open Scope string_scope.
Open Scope Z_scope.

(** ** Random source: [detail::get_rand]

    [std::default_random_engine] is [std::minstd_rand0] in libstdc++
    (multiplier 16807, increment 0, modulus 2^31-1), and
    [std::uniform_int_distribution<unsigned long>] draws with the
    libstdc++ downscaling / upscaling algorithm. The rejection loops of the
    distribution are [do ... while] loops; they are given a bound [fuel]
    here, and a loop that would run longer returns the lower bound 0. *)

Module MinStd.

Definition a : Z := 16807.
Definition m : Z := 2147483647.
(** [min()] is 1 and [max()] is [m - 1], so [urngrange] is [m - 2]. *)
Definition urngmin : Z := 1.
Definition urngrange : Z := m - 2.
Definition word : Z := 2 ^ 64.

(** [linear_congruential_engine::seed]. *)
Definition seed_state (s : Z) : Z :=
  if s mod m =? 0 then 1 else s mod m.

(** [linear_congruential_engine::operator()]: the new state is returned. *)
Definition next (x : Z) : Z := (a * x) mod m.

(** Downscaling: [do ret = urng() - urngmin; while (ret >= past); ret /= scaling]. *)
Fixpoint downscale (fuel : nat) (x scaling past : Z) : Z * Z :=
  let x' := next x in
  let ret := x' - urngmin in
  if ret <? past then (x', ret / scaling)
  else match fuel with
       | O => (x', 0)
       | S f => downscale f x' scaling past
       end.

(** Upscaling: [do { tmp = uerngrange * operator()(urng, param_type(0,
    urange / uerngrange)); ret = tmp + (urng() - urngmin); } while (ret >
    urange || ret < tmp)], with [draw] the recursive [operator()] and
    wrap-around of [unsigned long]. *)
Fixpoint upscale (draw : Z -> Z -> Z * Z) (urange : Z) (n : nat) (x : Z) : Z * Z :=
  let uerngrange := urngrange + 1 in
  let '(x1, high) := draw x (urange / uerngrange) in
  let tmp := (uerngrange * high) mod word in
  let x2 := next x1 in
  let ret := (tmp + (x2 - urngmin)) mod word in
  if (urange <? ret) || (ret <? tmp) then
    match n with O => (x2, 0) | S n' => upscale draw urange n' x2 end
  else (x2, ret).

(** [uniform_int_distribution::operator()] on the range [0, urange]:
    returns the engine state after the draw and the value drawn. *)
Fixpoint uniform (fuel : nat) (x urange : Z) : Z * Z :=
  match fuel with
  | O => (x, 0)
  | S f =>
    if urange <? urngrange then
      let uerange := urange + 1 in
      let scaling := urngrange / uerange in
      downscale f x scaling (uerange * scaling)
    else if urngrange <? urange then
      upscale (uniform f) urange f x
    else
      let x' := next x in (x', x' - urngmin)
  end.

Definition fuel : nat := 64.

(** [get_rand(seed, min, max)]: a fresh engine seeded with [seed];
    [seed = generator()]; then [distribution(generator)].
    Returns the new [seed] and the number drawn. *)
Definition get_rand (seed min max : Z) : Z * Z :=
  let x0 := seed_state seed in
  let x1 := next x0 in
  let '(_, v) := uniform fuel x1 ((max - min) mod word) in
  (x1, (v + min) mod word).

End MinStd.

(** ** Token table

    [get_tokens]: the static [token_map]; a key without an entry gets the
    empty list [no_tokens]. *)
Definition get_tokens (key : ascii) : list string :=
  if Ascii.eqb key "s"%char then
    ["ach"; "ack"; "ad"; "age"; "ald"; "ale"; "an"; "ang"; "ar"; "ard"; "as";
     "ash"; "at"; "ath"; "augh"; "aw"; "ban"; "bel"; "bur"; "cer"; "cha";
     "che"; "dan"; "dar"; "del"; "den"; "dra"; "dyn"; "ech"; "eld"; "elm";
     "em"; "en"; "end"; "eng"; "enth"; "er"; "ess"; "est"; "et"; "gar";
     "gha"; "hat"; "hin"; "hon"; "ia"; "ight"; "ild"; "im"; "ina"; "ine";
     "ing"; "ir"; "is"; "iss"; "it"; "kal"; "kel"; "kim"; "kin"; "ler";
     "lor"; "lye"; "mor"; "mos"; "nal"; "ny"; "nys"; "old"; "om"; "on"; "or";
     "orm"; "os"; "ough"; "per"; "pol"; "qua"; "que"; "rad"; "rak"; "ran";
     "ray"; "ril"; "ris"; "rod"; "roth"; "ryn"; "sam"; "say"; "ser"; "shy";
     "skel"; "sul"; "tai"; "tan"; "tas"; "ther"; "tia"; "tin"; "ton"; "tor";
     "tur"; "um"; "und"; "unt"; "urn"; "usk"; "ust"; "ver"; "ves"; "vor";
     "war"; "wor"; "yer"]
  else if Ascii.eqb key "v"%char then
    ["a"; "e"; "i"; "o"; "u"; "y"]
  else if Ascii.eqb key "V"%char then
    ["a"; "e"; "i"; "o"; "u"; "y"; "ae"; "ai"; "au"; "ay"; "ea"; "ee"; "ei";
     "eu"; "ey"; "ia"; "ie"; "oe"; "oi"; "oo"; "ou"; "ui"]
  else if Ascii.eqb key "c"%char then
    ["b"; "c"; "d"; "f"; "g"; "h"; "j"; "k"; "l"; "m"; "n"; "p"; "q"; "r";
     "s"; "t"; "v"; "w"; "x"; "y"; "z"]
  else if Ascii.eqb key "B"%char then
    ["b"; "bl"; "br"; "c"; "ch"; "chr"; "cl"; "cr"; "d"; "dr"; "f"; "g"; "h";
     "j"; "k"; "l"; "ll"; "m"; "n"; "p"; "ph"; "qu"; "r"; "rh"; "s"; "sch";
     "sh"; "sl"; "sm"; "sn"; "st"; "str"; "sw"; "t"; "th"; "thr"; "tr"; "v";
     "w"; "wh"; "y"; "z"; "zh"]
  else if Ascii.eqb key "C"%char then
    ["b"; "c"; "ch"; "ck"; "d"; "f"; "g"; "gh"; "h"; "k"; "l"; "ld"; "ll";
     "lt"; "m"; "n"; "nd"; "nn"; "nt"; "p"; "ph"; "q"; "r"; "rd"; "rr"; "rt";
     "s"; "sh"; "ss"; "st"; "t"; "th"; "v"; "w"; "y"; "z"]
  else if Ascii.eqb key "i"%char then
    ["air"; "ankle"; "ball"; "beef"; "bone"; "bum"; "bumble"; "bump";
     "cheese"; "clod"; "clot"; "clown"; "corn"; "dip"; "dolt"; "doof";
     "dork"; "dumb"; "face"; "finger"; "foot"; "fumble"; "goof"; "grumble";
     "head"; "knock"; "knocker"; "knuckle"; "loaf"; "lump"; "lunk"; "meat";
     "muck"; "munch"; "nit"; "numb"; "pin"; "puff"; "skull"; "snark";
     "sneeze"; "thimble"; "twerp"; "twit"; "wad"; "wimp"; "wipe"]
  else if Ascii.eqb key "m"%char then
    ["baby"; "booble"; "bunker"; "cuddle"; "cuddly"; "cutie"; "doodle";
     "foofie"; "gooble"; "honey"; "kissie"; "lover"; "lovey"; "moofie";
     "mooglie"; "moopie"; "moopsie"; "nookum"; "poochie"; "poof"; "poofie";
     "pookie"; "schmoopie"; "schnoogle"; "schnookie"; "schnookum"; "smooch";
     "smoochie"; "smoosh"; "snoogle"; "snoogy"; "snookie"; "snookum";
     "snuggy"; "sweetie"; "woogle"; "woogy"; "wookie"; "wookum"; "wuddle";
     "wuddly"; "wuggy"; "wunny"]
  else if Ascii.eqb key "M"%char then
    ["boo"; "bunch"; "bunny"; "cake"; "cakes"; "cute"; "darling"; "dumpling";
     "dumplings"; "face"; "foof"; "goo"; "head"; "kin"; "kins"; "lips";
     "love"; "mush"; "pie"; "poo"; "pooh"; "pook"; "pums"]
  else if Ascii.eqb key "D"%char then
    ["b"; "bl"; "br"; "cl"; "d"; "f"; "fl"; "fr"; "g"; "gh"; "gl"; "gr"; "h";
     "j"; "k"; "kl"; "m"; "n"; "p"; "th"; "w"]
  else if Ascii.eqb key "d"%char then
    ["elch"; "idiot"; "ob"; "og"; "ok"; "olph"; "olt"; "omph"; "ong"; "onk";
     "oo"; "oob"; "oof"; "oog"; "ook"; "ooz"; "org"; "ork"; "orm"; "oron";
     "ub"; "uck"; "ug"; "ulf"; "ult"; "um"; "umb"; "ump"; "umph"; "un";
     "unb"; "ung"; "unk"; "unph"; "unt"; "uzz"]
  else if Ascii.eqb key "t"%char then
    ["Master of"; "Ruler of"; "Teacher of"; "Betrayer of"; "Warden of";
     "Protector of"; "Conqueror of"; "King of"; "Queen of"; "Champion of";
     "Overlord of"; "Defender of"; "Seeker of"; "Harbinger of"; "Invoker of";
     "Shaper of"; "Bearer of"; "Savior of"; "Keeper of"; "Lord of";
     "Lady of"; "Scholar of"; "Lord Protector of"; "Bringer of";
     "Emissary of"; "Voice of"; "Commander of"; "Herald of"; "Foe of";
     "Enlightener of"; "Guardian of"; "Scribe of"; "Disruptor of";
     "Architect of"; "Wanderer of"; "Knight of"; "Vanguard of"; "Reaper of";
     "Adviser of"; "Slayer of"; "Hunter of"; "Scribe of"; "Guide of";
     "Throne of"; "Archmage of"; "Mystic of"; "Scribe of"; "Watcher of";
     "Curse of"; "Revenge of"; "Crown of"; "Breaker of";
     "Lord of the Shadows"; "Maestro of"; "Illuminator of"; "Tamer of";
     "Harvester of"; "Bringer of the Dawn"; "Wielder of"; "Mastermind of";
     "Chronicler of"; "Mentor of"]
  else if Ascii.eqb key "T"%char then
    ["the Endless"; "the Sea"; "the Fiery Pit"; "the Deep"; "the Forsaken";
     "the Fallen"; "the Immortal"; "the Forgotten"; "the Abyss";
     "the Eternal Flame"; "the Storm"; "the Unseen"; "the Boundless";
     "the Savage"; "the Unyielding"; "the Wilds"; "the First"; "the Cursed";
     "the Heavens"; "the Shadows"; "the Eternal Night"; "the Darkened";
     "the Wanderer"; "the Unknown"; "the Crowned"; "the Iron Fist";
     "the Moon"; "the Ashen"; "the Silent"; "the Wanderer"; "the Unforgiven";
     "the Alchemist"; "the Lost"; "the Eternal Watch"; "the Glorious";
     "the Red Hand"; "the Sky"; "the Crucible"; "the Flame"; "the Ancient";
     "the Heralded"; "the Stormbringer"; "the Dread"; "the Shattered";
     "the Merciless"; "the Void"; "the Conquered"; "the Broken";
     "the Chosen"; "the Unchained"; "the Hunter"; "the Dying"; "the Radiant";
     "the Last"; "the Hidden"; "the Seeker"; "the Vanquished";
     "the Blighted"; "the Outcast"; "the Sacred"; "the Voidbringer";
     "the Vengeful"; "the Unshakable"; "the Phoenix"; "the Blessed";
     "the Valiant"; "the Reborn"; "the Reckoning"]
  else [].

(** ** Properties of the random source *)

Module MinStdFacts.
Import MinStd.

Lemma m_pos : 0 < m.
Proof. unfold m; lia. Qed.

Lemma seed_state_range (s : Z) : 1 <= seed_state s < m.
Proof.
  unfold seed_state. pose proof (Z.mod_pos_bound s m m_pos).
  destruct (Z.eqb_spec (s mod m) 0); unfold m in *; lia.
Qed.

(** The multiplier is coprime to the (prime) modulus, so a non-zero state
    never becomes zero. *)
Lemma next_range (x : Z) : 1 <= x < m -> 1 <= next x < m.
Proof.
  intros Hx. unfold next.
  pose proof (Z.mod_pos_bound (a * x) m m_pos).
  destruct (Z.eq_dec ((a * x) mod m) 0) as [H0 | H0]; [| lia].
  exfalso.
  apply Z.mod_divide in H0; [| unfold m; lia].
  assert (Hg : Z.gcd m a = 1) by reflexivity.
  pose proof (Z.gauss m a x H0 Hg) as [k Hk].
  destruct (Z.lt_trichotomy k 0) as [Hk0 | [Hk0 | Hk0]]; subst; unfold m in *; nia.
Qed.

Lemma downscale_range (f : nat) (x scaling past urange : Z) :
  1 <= x < m -> 0 < scaling -> past = (urange + 1) * scaling -> 0 <= urange ->
  0 <= snd (downscale f x scaling past) <= urange.
Proof.
  revert x. induction f as [| f IH]; intros x Hx Hs Hp Hu; simpl;
    pose proof (next_range x Hx) as Hn;
    destruct (next x - urngmin <? past) eqn:E; simpl.
  2, 4: try lia; apply IH; lia.
  all: apply Z.ltb_lt in E; unfold urngmin in *; split;
    [apply Z.div_pos; lia
    | assert ((next x - 1) / scaling < urange + 1) by (apply Z.div_lt_upper_bound; lia); lia].
Qed.

Lemma upscale_range draw urange (n : nat) (x : Z) :
  0 <= urange -> 0 <= snd (upscale draw urange n x) <= urange.
Proof.
  intros Hu. revert x. induction n as [| n IH]; intros x; simpl;
    destruct (draw x _) as [x1 high];
    destruct ((urange <? _) || (_ <? _)) eqn:E3; simpl; try lia; try apply IH;
    apply orb_false_iff in E3 as [E3 _]; apply Z.ltb_ge in E3;
    split; try lia; apply Z.mod_pos_bound; unfold word; lia.
Qed.

Lemma uniform_range (f : nat) (x urange : Z) :
  1 <= x < m -> 0 <= urange -> 0 <= snd (uniform f x urange) <= urange.
Proof.
  intros Hx Hu. destruct f as [| f]; simpl; [lia |].
  destruct (urange <? urngrange) eqn:E1.
  - apply Z.ltb_lt in E1.
    apply downscale_range; auto.
    apply Z.div_str_pos; unfold urngrange, m in *; lia.
  - destruct (urngrange <? urange) eqn:E2.
    + apply upscale_range; lia.
    + apply Z.ltb_ge in E1, E2. simpl. pose proof (next_range x Hx).
      unfold urngmin, urngrange in *; lia.
Qed.

(** [get_rand(seed, 0, n)] lies in [[0, n]]. *)
Lemma get_rand_range (s n : Z) :
  0 <= n < word -> 0 <= snd (get_rand s 0 n) <= n.
Proof.
  intros Hn. unfold get_rand.
  pose proof (next_range _ (seed_state_range s)) as Hx.
  rewrite Z.sub_0_r, Z.mod_small by lia.
  pose proof (uniform_range fuel _ n Hx ltac:(lia)) as Hv.
  destruct (uniform _ _ _) as [x' v]; simpl in *.
  rewrite Z.add_0_r, Z.mod_small; lia.
Qed.

End MinStdFacts.

(** ** The interpreter

    The functions below call the random source [detail::get_rand], a
    section variable here; the program's own is [MinStd.get_rand]. *)

Section Interpreter.

Variable get_rand : Z -> Z -> Z -> Z * Z.

(** Interpreter state: [detail::option_t] *)

Record option_t := mk_option {
  capitalize : bool;
  emit_literal : bool;
  inside_group : bool;
  seed : Z;
  current_option : string;
  options : list string
}.

Definition set_capitalize (o : option_t) (b : bool) : option_t :=
  mk_option b (emit_literal o) (inside_group o) (seed o) (current_option o) (options o).
Definition set_emit_literal (o : option_t) (b : bool) : option_t :=
  mk_option (capitalize o) b (inside_group o) (seed o) (current_option o) (options o).
Definition set_inside_group (o : option_t) (b : bool) : option_t :=
  mk_option (capitalize o) (emit_literal o) b (seed o) (current_option o) (options o).
Definition set_seed (o : option_t) (s : Z) : option_t :=
  mk_option (capitalize o) (emit_literal o) (inside_group o) s (current_option o) (options o).
Definition set_current_option (o : option_t) (c : string) : option_t :=
  mk_option (capitalize o) (emit_literal o) (inside_group o) (seed o) c (options o).
Definition set_options (o : option_t) (l : list string) : option_t :=
  mk_option (capitalize o) (emit_literal o) (inside_group o) (seed o) (current_option o) l.

(** A default-constructed [option_t] with [options.seed = seed]. *)
Definition initial_options (s : Z) : option_t :=
  mk_option false false false s "" [].

(** [std::string::push_back]. *)
Definition push_back (buf : string) (c : ascii) : string :=
  buf ++ String c EmptyString.

(** [std::toupper] in the "C" locale. *)
Definition toupper (c : ascii) : ascii :=
  let n := nat_of_ascii c in
  if (97 <=? n)%nat && (n <=? 122)%nat then ascii_of_nat (n - 32) else c.

(** [capitalize_and_clear(character, capitalize)]: the character returned
    and the new value of the [capitalize] flag. *)
Definition capitalize_and_clear (character : ascii) (cap : bool) : ascii * bool :=
  if cap then (toupper character, false) else (character, cap).

(** [pick_random_element(seed, tokens)]: [tokens[random_index]] (the index
    drawn is in range, see [get_rand_range] below). *)
Definition pick_random_element (s : Z) (tokens : list string) : Z * string :=
  let '(s', random_index) := get_rand s 0 (Z.of_nat (List.length tokens) - 1) in
  (s', nth (Z.to_nat random_index) tokens EmptyString).

(** [process_token(options, buffer, key)]: new state, new buffer, and the
    returned [int] (1 = [true]). *)
Definition process_token (o : option_t) (buf : string) (key : ascii)
  : option_t * string * bool :=
  let tokens := get_tokens key in
  match tokens with
  | [] =>
    let '(ch, cap) := capitalize_and_clear key (capitalize o) in
    (set_capitalize o cap, push_back buf ch, true)
  | _ :: _ =>
    let '(s', token) := pick_random_element (seed o) tokens in
    let o1 := set_seed o s' in
    match token with
    | EmptyString => (o1, buf, false)
    | String c rest =>
      let '(ch, cap) := capitalize_and_clear c (capitalize o1) in
      (set_capitalize o1 cap, buf ++ String ch rest, true)
    end
  end.

(** The loop [for (c : s) if (!process_character(options, buffer, c)) ...]
    shared by the group case of [process_character] and by [generate]:
    it stops at the first character whose processing returns 0.
    [None] means that a recursive call ran out of the recursion bound. *)
Fixpoint run_chars
    (pc : option_t -> string -> ascii -> option (bool * option_t * string))
    (o : option_t) (buf : string) (s : string) : option (bool * option_t * string) :=
  match s with
  | EmptyString => Some (true, o, buf)
  | String c s' =>
    match pc o buf c with
    | None => None
    | Some (false, o', buf') => Some (false, o', buf')
    | Some (true, o', buf') => run_chars pc o' buf' s'
    end
  end.

(** [process_character(options, buffer, character)]: the new state, the new
    buffer and the returned [int] (1 = [true]). The recursion of the ['>']
    case is bounded by [depth]; [None] when the bound is exhausted. *)
Fixpoint process_character (depth : nat) (o : option_t) (buf : string) (character : ascii)
  : option (bool * option_t * string) :=
  match depth with
  | O => None
  | S depth' =>
    if Ascii.eqb character "(" then
      Some (true, if inside_group o then o else set_emit_literal o true, buf)
    else if Ascii.eqb character ")" then
      Some (true, if inside_group o then o else set_emit_literal o false, buf)
    else if Ascii.eqb character "<" then
      Some (true, set_current_option (set_options (set_inside_group o true) []) "", buf)
    else if Ascii.eqb character "|" then
      Some (true, set_current_option (set_options o (options o ++ [current_option o])) "", buf)
    else if Ascii.eqb character ">" then
      let o1 := set_current_option
                  (set_options (set_inside_group o false) (options o ++ [current_option o])) "" in
      match options o1 with
      | [] => Some (false, o1, buf)
      | _ :: _ =>
        let '(s', random_index) :=
          get_rand (seed o1) 0 (Z.of_nat (List.length (options o1)) - 1) in
        let o2 := set_seed o1 s' in
        let selected_option := nth (Z.to_nat random_index) (options o2) EmptyString in
        match run_chars (process_character depth') o2 buf selected_option with
        | None => None
        | Some (false, o3, buf3) => Some (false, o3, buf3)
        | Some (true, o3, buf3) => Some (true, set_options o3 [], buf3)
        end
      end
    else if Ascii.eqb character "!" then
      Some (true, set_capitalize o true, buf)
    else if inside_group o then
      Some (true, set_current_option o (push_back (current_option o) character), buf)
    else if emit_literal o then
      let '(ch, cap) := capitalize_and_clear character (capitalize o) in
      Some (true, set_capitalize o cap, push_back buf ch)
    else
      (* the [int] returned by [process_token] is ignored *)
      let '(o', buf', _) := process_token o buf character in
      Some (true, o', buf')
  end.

(** The loop of [generate] from the initial state, with recursion bound
    [S (length pattern)]. *)
Definition run_pattern (pattern : string) (s : Z) : option (bool * option_t * string) :=
  run_chars (process_character (S (String.length pattern))) (initial_options s) "" pattern.

(** [generate(pattern, seed)]: on a 0 from [process_character] the buffer is
    cleared and the loop left. *)
Definition generate (pattern : string) (s : Z) : option string :=
  match run_pattern pattern s with
  | None => None
  | Some (true, _, buf) => Some buf
  | Some (false, _, _) => Some EmptyString
  end.

(** ** Auxiliary definitions for the proofs *)

(** The characters with a case of their own in [process_character]. *)
Definition special (c : ascii) : bool :=
  Ascii.eqb c "(" || Ascii.eqb c ")" || Ascii.eqb c "<" || Ascii.eqb c "|"
  || Ascii.eqb c ">" || Ascii.eqb c "!".

(** A string made only of characters handled by the [default] case. *)
Fixpoint plain (s : string) : bool :=
  match s with
  | EmptyString => true
  | String c s' => negb (special c) && plain s'
  end.

(** The collected group text holds plain strings only. *)
Definition collected_plain (o : option_t) : bool :=
  plain (current_option o) && forallb plain (options o).

(** The fields of [option_t] that describe group structure. *)
Definition same_structure (o o' : option_t) : Prop :=
  inside_group o' = inside_group o /\ emit_literal o' = emit_literal o /\
  current_option o' = current_option o /\ options o' = options o.

(** Every collected alternative is at most [k] characters long. *)
Definition collected_within (k : nat) (o : option_t) : Prop :=
  (String.length (current_option o) <= k)%nat /\
  Forall (fun x => (String.length x <= k)%nat) (options o).

(** Executions of the loop of [generate] as a relation: [exec d o buf p out]
    when processing the rest [p] of the pattern from state [o] and buffer
    [buf], with recursion bound [d], ends with output [out]. *)
Inductive exec (d : nat) : option_t -> string -> string -> string -> Prop :=
| exec_done o buf : exec d o buf EmptyString buf
| exec_ok o buf c rest o' buf' out :
    process_character d o buf c = Some (true, o', buf') ->
    exec d o' buf' rest out -> exec d o buf (String c rest) out
| exec_fail o buf c rest o' buf' :
    process_character d o buf c = Some (false, o', buf') ->
    exec d o buf (String c rest) EmptyString.

(** [runs p s out]: a run of [generate p s] that returns [out]. *)
Definition runs (p : string) (s : Z) (out : string) : Prop :=
  exec (S (String.length p)) (initial_options s) EmptyString p out.

(** Upper-case letter in ASCII. *)
Definition is_upper (c : ascii) : bool :=
  let n := nat_of_ascii c in (65 <=? n)%nat && (n <=? 90)%nat.

(** Lower-case letter in ASCII. *)
Definition is_lower (c : ascii) : bool :=
  let n := nat_of_ascii c in (97 <=? n)%nat && (n <=? 122)%nat.

(** The nesting depth the specification speaks of: the largest number of
    ['<'] or ['('] opened and not yet closed by ['>'] or [')'] at any point
    of the pattern. *)
Fixpoint depth_from (cur : nat) (p : string) : nat :=
  match p with
  | EmptyString => cur
  | String c r =>
    if Ascii.eqb c "<" || Ascii.eqb c "(" then Nat.max cur (depth_from (S cur) r)
    else if Ascii.eqb c ">" || Ascii.eqb c ")" then Nat.max cur (depth_from (pred cur) r)
    else Nat.max cur (depth_from cur r)
  end.

Definition nesting_depth (p : string) : nat := depth_from 0 p.

(** [n] unclosed ['<']. *)
Fixpoint opens (n : nat) : string :=
  match n with
  | O => EmptyString
  | S n' => String "<" (opens n')
  end.

(** Whether a string holds a ['>']. *)
Fixpoint has_close (s : string) : bool :=
  match s with
  | EmptyString => false
  | String c s' => Ascii.eqb c ">" || has_close s'
  end.

(** Two states that differ at most in their seed, where both seeds make
    [get_rand] draw the same. *)
Definition seed_rel (o1 o2 : option_t) : Prop :=
  set_seed o1 0 = set_seed o2 0 /\
  forall min max, get_rand (seed o1) min max = get_rand (seed o2) min max.

Definition result_rel (x y : option (bool * option_t * string)) : Prop :=
  match x, y with
  | None, None => True
  | Some (r1, o1, b1), Some (r2, o2, b2) => r1 = r2 /\ b1 = b2 /\ seed_rel o1 o2
  | _, _ => False
  end.


(** The only property of the random source the proofs rely on. *)
Hypothesis get_rand_range :
  forall s n, 0 <= n < MinStd.word -> 0 <= snd (get_rand s 0 n) <= n.


(** ** Structure of the interpreter state *)

Lemma string_length_append (s t : string) :
  String.length (s ++ t) = (String.length s + String.length t)%nat.
Proof. induction s as [| c s IH]; simpl; auto. Qed.


Lemma append_nil_r_string (s : string) : s ++ EmptyString = s.
Proof. induction s as [| c s IH]; simpl; congruence. Qed.

Lemma append_assoc_string (s t u : string) : s ++ (t ++ u) = (s ++ t) ++ u.
Proof. induction s as [| c s IH]; simpl; congruence. Qed.

Lemma plain_append (s t : string) : plain (s ++ t) = plain s && plain t.
Proof.
  induction s as [| c s IH]; simpl; auto. rewrite IH. apply andb_assoc.
Qed.

Lemma plain_nth (l : list string) (n : nat) :
  forallb plain l = true -> plain (nth n l EmptyString) = true.
Proof.
  revert n. induction l as [| x l IH]; intros [| n] H; simpl in *; auto;
    apply andb_true_iff in H as [H1 H2]; auto.
Qed.

Lemma special_false (c : ascii) :
  special c = false ->
  Ascii.eqb c "(" = false /\ Ascii.eqb c ")" = false /\ Ascii.eqb c "<" = false /\
  Ascii.eqb c "|" = false /\ Ascii.eqb c ">" = false /\ Ascii.eqb c "!" = false.
Proof. unfold special. intros H. repeat rewrite orb_false_iff in H. tauto. Qed.

Lemma process_token_structure (o : option_t) (buf : string) (k : ascii) :
  let '(o', _, _) := process_token o buf k in same_structure o o'.
Proof.
  unfold process_token, same_structure.
  destruct (get_tokens k) as [| t ts].
  - destruct (capitalize_and_clear k (capitalize o)); simpl; auto.
  - destruct (pick_random_element _ _) as [s' [| c rest]]; simpl; auto.
    destruct (capitalize_and_clear c (capitalize o)); simpl; auto.
Qed.

(** The [default] case: the result does not depend on the recursion bound. *)
Lemma process_character_default (d : nat) (o : option_t) (buf : string) (c : ascii) :
  special c = false ->
  process_character (S d) o buf c =
  if inside_group o then
    Some (true, set_current_option o (push_back (current_option o) c), buf)
  else if emit_literal o then
    let '(ch, cap) := capitalize_and_clear c (capitalize o) in
    Some (true, set_capitalize o cap, push_back buf ch)
  else
    let '(o', buf', _) := process_token o buf c in Some (true, o', buf').
Proof.
  intros H. apply special_false in H as (H1 & H2 & H3 & H4 & H5 & H6).
  simpl. rewrite H1, H2, H3, H4, H5, H6. reflexivity.
Qed.

(** Outside a group a plain string is emitted without touching the group
    fields, and never fails. *)
Lemma run_plain (d : nat) (s : string) (o : option_t) (buf : string) :
  plain s = true -> inside_group o = false ->
  exists o' buf', run_chars (process_character (S d)) o buf s = Some (true, o', buf')
    /\ same_structure o o'.
Proof.
  revert o buf. induction s as [| c s IH]; intros o buf Hp Hg; cbn [run_chars plain] in *.
  - exists o, buf. split; [reflexivity | repeat split].
  - apply andb_true_iff in Hp as [Hc Hs]. apply negb_true_iff in Hc.
    rewrite (process_character_default d o buf c Hc), Hg.
    destruct (emit_literal o) eqn:El.
    + destruct (capitalize_and_clear c (capitalize o)) as [ch cap].
      destruct (IH (set_capitalize o cap) (push_back buf ch) Hs Hg) as (o' & b' & Hr & Hst).
      exists o', b'. split; [exact Hr |].
      destruct Hst as (A & B & C & D). repeat split; simpl in *; congruence.
    + pose proof (process_token_structure o buf c) as Ht.
      destruct (process_token o buf c) as [[o1 b1] r].
      destruct Ht as (A & B & C & D).
      destruct (IH o1 b1 Hs ltac:(congruence)) as (o' & b' & Hr & Hst).
      exists o', b'. split; [exact Hr |].
      destruct Hst as (A' & B' & C' & D'). repeat split; congruence.
Qed.

Lemma special_cases (c : ascii) :
  special c = true ->
  c = "("%char \/ c = ")"%char \/ c = "<"%char \/ c = "|"%char \/ c = ">"%char \/ c = "!"%char.
Proof.
  unfold special. intros H. repeat rewrite orb_true_iff in H.
  repeat rewrite Ascii.eqb_eq in H. tauto.
Qed.

(** The ['>'] case of [process_character], one level unfolded. *)
Lemma process_character_close (d : nat) (o : option_t) (buf : string) :
  process_character (S d) o buf ">" =
  let o1 := set_current_option
              (set_options (set_inside_group o false) (options o ++ [current_option o])) "" in
  match options o1 with
  | [] => Some (false, o1, buf)
  | _ :: _ =>
    let '(s', random_index) :=
      get_rand (seed o1) 0 (Z.of_nat (List.length (options o1)) - 1) in
    let o2 := set_seed o1 s' in
    let selected_option := nth (Z.to_nat random_index) (options o2) EmptyString in
    match run_chars (process_character d) o2 buf selected_option with
    | None => None
    | Some (false, o3, buf3) => Some (false, o3, buf3)
    | Some (true, o3, buf3) => Some (true, set_options o3 [], buf3)
    end
  end.
Proof. reflexivity. Qed.

Lemma collected_within_mono (k k' : nat) (o : option_t) :
  (k <= k')%nat -> collected_within k o -> collected_within k' o.
Proof.
  intros Hk [H1 H2]. split; [lia |].
  eapply Forall_impl; [| exact H2]. intros x Hx; simpl in Hx; lia.
Qed.

(** One character: with a recursion bound of at least 2 the processing
    succeeds, keeps the collected text plain, and the collected
    alternatives grow by at most one character. *)
Lemma process_character_step (d k : nat) (o : option_t) (buf : string) (c : ascii) :
  collected_plain o = true -> collected_within k o ->
  exists o' buf', process_character (S (S d)) o buf c = Some (true, o', buf') /\
    collected_plain o' = true /\ collected_within (S k) o'.
Proof.
  intros Hp Hw.
  pose proof (collected_within_mono k (S k) o ltac:(lia) Hw) as Hw'.
  unfold collected_plain in Hp. apply andb_true_iff in Hp as [Hc Ho].
  destruct (special c) eqn:Hs.
  - apply special_cases in Hs as [-> | [-> | [-> | [-> | [-> | ->]]]]].
    + simpl. destruct (inside_group o); eexists _, _; (split; [reflexivity |]);
        unfold collected_plain; simpl; rewrite Hc, Ho; (split; [reflexivity | exact Hw']).
    + simpl. destruct (inside_group o); eexists _, _; (split; [reflexivity |]);
        unfold collected_plain; simpl; rewrite Hc, Ho; (split; [reflexivity | exact Hw']).
    + eexists _, _. split; [reflexivity |]. split; [reflexivity |].
      split; simpl; [lia | constructor].
    + eexists _, _. split; [reflexivity |]. unfold collected_plain; simpl.
      rewrite forallb_app. simpl. rewrite Hc, Ho. split; [reflexivity |].
      destruct Hw' as [H1 H2]. split; [simpl; lia |]. apply Forall_app; split; [exact H2 | constructor; [lia | constructor]].
    + rewrite process_character_close. cbv zeta.
      destruct ((options o ++ [current_option o])%list) as [| x xs] eqn:Hl;
        [destruct (options o); discriminate |]. simpl options.
      destruct (get_rand _ _ _) as [s' idx].
      assert (Hpl : plain (nth (Z.to_nat idx) (x :: xs) EmptyString) = true).
      { apply plain_nth. rewrite <- Hl, forallb_app. simpl. rewrite Hc, Ho. reflexivity. }
      destruct (run_plain d _ (set_seed (set_current_option (set_options
                  (set_inside_group o false) (x :: xs)) "") s') buf Hpl eq_refl)
        as (o3 & b3 & Hr & (A & B & C & D)).
      simpl options. rewrite Hr. eexists _, _. split; [reflexivity |].
      unfold collected_plain; simpl. rewrite C. simpl. split; [reflexivity |].
      split; simpl; [rewrite C; simpl; lia | constructor].
    + eexists _, _. split; [reflexivity |]. unfold collected_plain; simpl.
      rewrite Hc, Ho. split; [reflexivity | exact Hw'].
  - rewrite process_character_default by exact Hs.
    destruct (inside_group o).
    + eexists _, _. split; [reflexivity |]. unfold collected_plain, push_back; simpl.
      rewrite plain_append, Hc, Ho. simpl. rewrite Hs. split; [reflexivity |].
      destruct Hw as [H1 H2]. split.
      * simpl. rewrite string_length_append. simpl. lia.
      * eapply Forall_impl; [| exact H2]. intros y Hy; simpl in Hy; lia.
    + destruct (emit_literal o).
      * destruct (capitalize_and_clear c (capitalize o)) as [ch cap].
        eexists _, _. split; [reflexivity |]. unfold collected_plain; simpl.
        rewrite Hc, Ho. split; [reflexivity | exact Hw'].
      * pose proof (process_token_structure o buf c) as Ht.
        destruct (process_token o buf c) as [[o1 b1] r].
        destruct Ht as (A & B & C & D).
        eexists _, _. split; [reflexivity |]. unfold collected_plain, collected_within.
        rewrite C, D, Hc, Ho. split; [reflexivity |]. exact Hw'.
Qed.

Lemma run_chars_steps (d k : nat) (q : string) (o : option_t) (buf : string) :
  collected_plain o = true -> collected_within k o ->
  exists o' buf', run_chars (process_character (S (S d))) o buf q = Some (true, o', buf') /\
    collected_plain o' = true /\ collected_within (k + String.length q) o'.
Proof.
  revert k o buf. induction q as [| c q IH]; intros k o buf Hp Hw; cbn [run_chars].
  - exists o, buf. rewrite Nat.add_0_r. auto.
  - destruct (process_character_step d k o buf c Hp Hw) as (o1 & b1 & -> & Hp1 & Hw1).
    destruct (IH (S k) o1 b1 Hp1 Hw1) as (o' & b' & Hr & Hp' & Hw').
    exists o', b'. split; [exact Hr |]. split; [exact Hp' |].
    simpl. rewrite <- plus_n_Sm. exact Hw'.
Qed.

Lemma initial_collected (s : Z) :
  collected_plain (initial_options s) = true /\ collected_within 0 (initial_options s).
Proof. split; [reflexivity | split; simpl; [lia | constructor]]. Qed.

(** [process_character] never returns 0 from [generate]: the loop always
    runs to the end of the pattern and the buffer is returned. *)
Lemma run_pattern_succeeds (p : string) (s : Z) :
  exists o buf, run_pattern p s = Some (true, o, buf) /\ generate p s = Some buf.
Proof.
  unfold generate, run_pattern.
  destruct p as [| c p'].
  - eexists _, _. split; reflexivity.
  - destruct (initial_collected s) as [Hp Hw].
    destruct (run_chars_steps (String.length p') 0 (String c p') _ "" Hp Hw)
      as (o & buf & Hr & _ & _).
    simpl String.length. rewrite Hr. eexists _, _. split; reflexivity.
Qed.

(** ** The token table *)

Lemma get_tokens_wf (k : ascii) :
  (List.length (get_tokens k) < 200)%nat /\
  forallb (fun t => negb (String.eqb t EmptyString)) (get_tokens k) = true.
Proof.
  unfold get_tokens.
  repeat match goal with
         | |- context [if Ascii.eqb k ?x then _ else _] => destruct (Ascii.eqb k x)
         end; split; simpl; (lia || reflexivity).
Qed.

Lemma pick_random_element_in (s : Z) (tokens : list string) :
  tokens <> [] -> (List.length tokens < 200)%nat ->
  In (snd (pick_random_element s tokens)) tokens.
Proof.
  intros Hne Hlen. unfold pick_random_element.
  assert (Hl : (0 < List.length tokens)%nat) by (destruct tokens; simpl; [congruence | lia]).
  pose proof (get_rand_range s (Z.of_nat (List.length tokens) - 1)
                ltac:(unfold MinStd.word; lia)) as Hr.
  destruct (get_rand _ _ _) as [s' i]. simpl in *.
  apply nth_In. lia.
Qed.

(** [process_token] on a key of the table appends a token of its category,
    the first character going through [capitalize_and_clear], and clears
    the capitalization flag. *)
Lemma process_token_table (o : option_t) (buf : string) (k : ascii) :
  get_tokens k <> [] ->
  exists c rest, In (String c rest) (get_tokens k) /\
    let '(o', buf', r) := process_token o buf k in
    buf' = buf ++ String (fst (capitalize_and_clear c (capitalize o))) rest /\
    r = true /\ capitalize o' = false /\ inside_group o' = inside_group o /\
    emit_literal o' = emit_literal o.
Proof.
  intros Hne. destruct (get_tokens_wf k) as [Hlen Hall].
  pose proof (pick_random_element_in (seed o) (get_tokens k) Hne Hlen) as Hin.
  unfold process_token.
  destruct (get_tokens k) as [| t ts] eqn:Ht; [congruence |].
  destruct (pick_random_element (seed o) (t :: ts)) as [s' token] eqn:Hp. simpl in Hin.
  rewrite forallb_forall in Hall. specialize (Hall token Hin).
  destruct token as [| c rest]; [discriminate |].
  exists c, rest. split; [exact Hin |].
  unfold capitalize_and_clear. simpl.
  destruct (capitalize o); simpl; auto.
Qed.

(** In literal mode, without a pending capitalization, a plain string is
    copied to the buffer. *)
Lemma run_literal (d : nat) (w : string) (o : option_t) (buf : string) :
  plain w = true -> inside_group o = false -> emit_literal o = true ->
  capitalize o = false ->
  exists o', run_chars (process_character (S d)) o buf w = Some (true, o', buf ++ w) /\
    same_structure o o'.
Proof.
  revert o buf. induction w as [| c w IH]; intros o buf Hp Hg Hl Hc;
    cbn [run_chars plain] in *.
  - exists o. rewrite append_nil_r_string. split; [reflexivity | repeat split].
  - apply andb_true_iff in Hp as [Hs Hw]. apply negb_true_iff in Hs.
    rewrite (process_character_default d o buf c Hs), Hg, Hl, Hc. simpl.
    destruct (IH (set_capitalize o false) (push_back buf c) Hw Hg Hl eq_refl)
      as (o' & Hr & (A & B & C & D)).
    exists o'. unfold push_back in Hr. rewrite <- append_assoc_string in Hr.
    simpl in Hr. split; [exact Hr |]. repeat split; simpl in *; congruence.
Qed.

(** ** Runs as a relation *)

Lemma exec_deterministic (d : nat) (o : option_t) (buf p out1 out2 : string) :
  exec d o buf p out1 -> exec d o buf p out2 -> out1 = out2.
Proof.
  intros H1. revert out2.
  induction H1 as [o buf | o buf c rest o' buf' out Hpc Hex IH | o buf c rest o' buf' Hpc];
    intros out2 H2; inversion H2; subst; try congruence.
  match goal with
  | H : process_character _ _ _ _ = _ |- _ =>
    rewrite Hpc in H; injection H as <- <-; apply IH; assumption
  end.
Qed.

Lemma exec_run_chars (d : nat) (o : option_t) (buf p out : string) :
  exec d o buf p out ->
  match run_chars (process_character d) o buf p with
  | Some (true, _, b) => b = out
  | Some (false, _, _) => out = EmptyString
  | None => False
  end.
Proof.
  induction 1 as [o buf | o buf c rest o' buf' out Hpc Hex IH | o buf c rest o' buf' Hpc];
    cbn [run_chars]; try rewrite Hpc; auto.
Qed.

Lemma runs_generate (p : string) (s : Z) (out : string) :
  runs p s out -> generate p s = Some out.
Proof.
  unfold runs, generate, run_pattern. intros H. apply exec_run_chars in H.
  destruct (run_chars _ _ _ _) as [[[[|] o] b] |]; subst; tauto.
Qed.

Lemma depth_from_opens (n cur : nat) : depth_from cur (opens n) = (cur + n)%nat.
Proof.
  revert cur. induction n as [| n IH]; intros cur; simpl; [lia |].
  rewrite IH. lia.
Qed.

Lemma run_opens (n d : nat) (o : option_t) (buf : string) :
  exists o', run_chars (process_character (S d)) o buf (opens n) = Some (true, o', buf).
Proof.
  revert o. induction n as [| n IH]; intros o; simpl; [eauto |]. apply IH.
Qed.

Lemma run_chars_app pc (o : option_t) (buf w r : string) :
  run_chars pc o buf (w ++ r) =
  match run_chars pc o buf w with
  | Some (true, o', buf') => run_chars pc o' buf' r
  | res => res
  end.
Proof.
  revert o buf. induction w as [| c w IH]; intros o buf; simpl; [reflexivity |].
  destruct (pc o buf c) as [[[[|] o'] b'] |]; auto.
Qed.

Lemma process_character_open_paren (d : nat) (o : option_t) (buf : string) :
  process_character (S d) o buf "(" =
  Some (true, if inside_group o then o else set_emit_literal o true, buf).
Proof. reflexivity. Qed.

Lemma process_character_close_paren (d : nat) (o : option_t) (buf : string) :
  process_character (S d) o buf ")" =
  Some (true, if inside_group o then o else set_emit_literal o false, buf).
Proof. reflexivity. Qed.

Lemma toupper_upper (c : ascii) : is_lower c = true -> is_upper (toupper c) = true.
Proof.
  unfold is_lower, is_upper, toupper. intros H. rewrite H.
  apply andb_true_iff in H as [H1 H2]. apply Nat.leb_le in H1, H2.
  rewrite Ascii.nat_ascii_embedding by lia.
  apply andb_true_iff. split; apply Nat.leb_le; lia.
Qed.

(** Draw from [get_rand] in a goal, remembering the range of the result. *)
Ltac draw :=
  match goal with
  | |- context [get_rand ?s 0 ?n] =>
    let Hr := fresh "Hr" in let i := fresh "idx" in
    pose proof (get_rand_range s n ltac:(unfold MinStd.word; lia)) as Hr;
    destruct (get_rand s 0 n) as [? i]; simpl in Hr;
    try (assert (i = 0) by lia; subst i)
  end.

(** Resolve a [process_token] on a key of the table in a goal. *)
Ltac resolve_token :=
  match goal with
  | |- context [process_token ?o ?b ?k] =>
    let c := fresh "c" in let rest := fresh "rest" in
    let Hin := fresh "Hin" in let Ht := fresh "Ht" in
    let Hc := fresh "Hc" in let Hg := fresh "Hg" in let Hl := fresh "Hl" in
    destruct (process_token_table o b k ltac:(discriminate)) as (c & rest & Hin & Ht);
    destruct (process_token o b k) as [[? ?] ?];
    destruct Ht as (? & ? & Hc & Hg & Hl); subst;
    cbn [inside_group emit_literal capitalize] in Hc, Hg, Hl
  end.

(** ** Evaluation of concrete patterns, for any random source *)


Lemma run_chars_nil pc (o : option_t) (buf : string) :
  run_chars pc o buf EmptyString = Some (true, o, buf).
Proof. reflexivity. Qed.

Lemma run_chars_cons pc (o : option_t) (buf : string) (c : ascii) (r : string) :
  run_chars pc o buf (String c r) =
  match pc o buf c with
  | None => None
  | Some (false, o', buf') => Some (false, o', buf')
  | Some (true, o', buf') => run_chars pc o' buf' r
  end.
Proof. reflexivity. Qed.

Lemma process_character_lt (d : nat) (o : option_t) (buf : string) :
  process_character (S d) o buf "<" =
  Some (true, set_current_option (set_options (set_inside_group o true) []) "", buf).
Proof. reflexivity. Qed.

Lemma process_character_pipe (d : nat) (o : option_t) (buf : string) :
  process_character (S d) o buf "|" =
  Some (true, set_current_option (set_options o (options o ++ [current_option o])) "", buf).
Proof. reflexivity. Qed.

Lemma process_character_bang (d : nat) (o : option_t) (buf : string) :
  process_character (S d) o buf "!" = Some (true, set_capitalize o true, buf).
Proof. reflexivity. Qed.

Lemma process_token_none (o : option_t) (buf : string) (key : ascii) :
  get_tokens key = [] ->
  process_token o buf key =
  let '(ch, cap) := capitalize_and_clear key (capitalize o) in
  (set_capitalize o cap, push_back buf ch, true).
Proof. intros H. unfold process_token. rewrite H. reflexivity. Qed.

(** One character of a concrete pattern, by the equations above. *)
Ltac eval_pc :=
  first [ rewrite process_character_open_paren | rewrite process_character_close_paren
        | rewrite process_character_lt | rewrite process_character_pipe
        | rewrite process_character_bang | rewrite process_character_close
        | rewrite process_character_default by reflexivity ].

Ltac eval_simpl :=
  unfold set_capitalize, set_emit_literal, set_inside_group, set_seed,
    set_current_option, set_options, initial_options, push_back;
  cbn [inside_group emit_literal capitalize seed current_option options
       append app List.length nth capitalize_and_clear fst snd Z.to_nat];
  repeat match goal with
         | H : inside_group ?o = _ |- context [inside_group ?o] => rewrite H
         | H : emit_literal ?o = _ |- context [emit_literal ?o] => rewrite H
         | H : capitalize ?o = _ |- context [capitalize ?o] => rewrite H
         end.

Ltac eval_run :=
  repeat (rewrite run_chars_nil || (rewrite run_chars_cons; eval_pc; eval_simpl;
                                     try (rewrite process_token_none by reflexivity;
                                          eval_simpl))).

Lemma nested_group_eval (s : Z) : generate "<a|<b>>" s = Some "b".
Proof.
  unfold generate, run_pattern. cbn [String.length].
  repeat (eval_run; draw; eval_simpl). reflexivity.
Qed.

Lemma malformed_eval (s : Z) :
  generate "<a)" s = Some "" /\ generate "(a>" s = Some "a" /\
  generate ")" s = Some "" /\ generate ">" s = Some "" /\ generate "<a" s = Some "".
Proof.
  repeat split; unfold generate, run_pattern; cbn [String.length];
    repeat (eval_run; draw; eval_simpl); reflexivity.
Qed.

Lemma bang_foo_eval (s : Z) : generate "!(foo)" s = Some "Foo".
Proof. unfold generate, run_pattern. cbn [String.length]. eval_run. reflexivity. Qed.

Lemma s_tokens_lower :
  forallb (fun t => match t with String c _ => is_lower c | EmptyString => false end)
          (get_tokens "s") = true.
Proof. reflexivity. Qed.

Lemma bang_s_eval (s : Z) :
  exists c rest, generate "!s" s = Some (String c rest) /\ is_upper c = true.
Proof.
  unfold generate, run_pattern. cbn [String.length]. eval_run.
  resolve_token. eval_simpl. rewrite run_chars_nil.
  eexists _, _. split; [reflexivity |]. apply toupper_upper.
  pose proof s_tokens_lower as Hlow. rewrite forallb_forall in Hlow.
  exact (Hlow _ Hin).
Qed.

Lemma empty_alternative_eval (s : Z) :
  exists out, generate "<c|v|>" s = Some out /\
    (In out (get_tokens "c") \/ In out (get_tokens "v") \/ out = "").
Proof.
  unfold generate, run_pattern. cbn [String.length]. eval_run. draw. eval_simpl.
  destruct (Z.to_nat _) as [|[|[|n]]] eqn:En; cbn [nth].
  - eval_run. resolve_token. eval_simpl. rewrite !run_chars_nil.
    eexists; split; [reflexivity |]. left; exact Hin.
  - eval_run. resolve_token. eval_simpl. rewrite !run_chars_nil.
    eexists; split; [reflexivity |]. right; left; exact Hin.
  - eval_run. eexists; split; [reflexivity |]. right; right; reflexivity.
  - lia.
Qed.

Lemma literal_eval (w : string) (s : Z) :
  plain w = true -> generate (String "(" (w ++ ")")) s = Some w.
Proof.
  intros Hp. unfold generate, run_pattern. cbn [String.length].
  rewrite run_chars_cons, process_character_open_paren. eval_simpl.
  rewrite run_chars_app.
  destruct (run_literal (S (String.length (w ++ ")"))) w
              (mk_option false true false s "" []) "" Hp eq_refl eq_refl eq_refl)
    as (o' & -> & (A & B & C & D)).
  rewrite run_chars_cons, process_character_close_paren, A. cbn [inside_group].
  rewrite run_chars_nil. reflexivity.
Qed.

Lemma unknown_key_eval (k : ascii) (s : Z) :
  get_tokens k = [] -> special k = false -> generate (String k EmptyString) s = Some (String k EmptyString).
Proof.
  intros Ht Hs. unfold generate, run_pattern. cbn [String.length].
  rewrite run_chars_cons, process_character_default by exact Hs. eval_simpl.
  rewrite process_token_none by exact Ht. eval_simpl. rewrite run_chars_nil. reflexivity.
Qed.

Lemma group_parens_eval (s : Z) :
  generate "<(C!i)|(v!M)>" s = generate "<C!i|v!M>" s.
Proof.
  unfold generate, run_pattern. cbn [String.length]. eval_run. draw. eval_simpl.
  destruct (Z.to_nat _) as [|[|n]] eqn:En; [| | lia]; eval_simpl;
    repeat (eval_run; resolve_token; eval_simpl); eval_run; reflexivity.
Qed.

Lemma group_in_literal_eval (s : Z) : generate "(<(C)>)" s = Some "C".
Proof.
  unfold generate, run_pattern. cbn [String.length].
  repeat (eval_run; draw; eval_simpl). reflexivity.
Qed.

(** ** Further structure of the interpreter *)

(** A plain string is processed the same under every recursion bound. *)
Lemma run_plain_depth (d d' : nat) (w : string) (o : option_t) (buf : string) :
  plain w = true ->
  run_chars (process_character (S d)) o buf w = run_chars (process_character (S d')) o buf w.
Proof.
  revert o buf. induction w as [| c w IH]; intros o buf Hp; cbn [run_chars plain] in *;
    [reflexivity |].
  apply andb_true_iff in Hp as [Hc Hw]. apply negb_true_iff in Hc.
  rewrite !(process_character_default _ o buf c Hc).
  destruct (inside_group o); [apply IH; exact Hw |].
  destruct (emit_literal o).
  - destruct (capitalize_and_clear c (capitalize o)). apply IH; exact Hw.
  - destruct (process_token o buf c) as [[o1 b1] r]. apply IH; exact Hw.
Qed.

(** A character other than ['>'] is processed the same under every
    recursion bound. *)
Lemma process_character_not_close (d d' : nat) (o : option_t) (buf : string) (c : ascii) :
  Ascii.eqb c ">" = false ->
  process_character (S d) o buf c = process_character (S d') o buf c.
Proof.
  intros Hc. cbn [process_character].
  destruct (Ascii.eqb c "("), (Ascii.eqb c ")"), (Ascii.eqb c "<"), (Ascii.eqb c "|");
    try reflexivity; rewrite Hc; reflexivity.
Qed.

Lemma process_character_depth (d d' : nat) (o : option_t) (buf : string) (c : ascii) :
  collected_plain o = true ->
  process_character (S (S d)) o buf c = process_character (S (S d')) o buf c.
Proof.
  intros Hp. destruct (Ascii.eqb c ">") eqn:Hc;
    [| apply process_character_not_close; exact Hc].
  apply Ascii.eqb_eq in Hc. subst c. rewrite !process_character_close. cbv zeta.
  unfold collected_plain in Hp. apply andb_true_iff in Hp as [Hc Ho].
  cbn [options set_current_option set_options set_inside_group].
  destruct ((options o ++ [current_option o])%list) as [| x xs] eqn:Hl; [reflexivity |].
  destruct (get_rand _ _ _) as [s' idx]. cbn [options set_seed].
  rewrite (run_plain_depth d d'); [reflexivity |].
  apply plain_nth. cbn [options set_current_option set_options set_inside_group].
  rewrite <- Hl, forallb_app. simpl. rewrite Hc, Ho. reflexivity.
Qed.

Lemma run_chars_depth (d d' k : nat) (p : string) (o : option_t) (buf : string) :
  collected_plain o = true -> collected_within k o ->
  run_chars (process_character (S (S d))) o buf p =
  run_chars (process_character (S (S d'))) o buf p.
Proof.
  revert k o buf. induction p as [| c p IH]; intros k o buf Hp Hw; [reflexivity |].
  cbn [run_chars]. rewrite (process_character_depth d d' o buf c Hp).
  destruct (process_character_step d' k o buf c Hp Hw) as (o1 & b1 & -> & Hp1 & Hw1).
  exact (IH (S k) o1 b1 Hp1 Hw1).
Qed.

(** The loop of [generate] under the recursion bound 2. *)
Lemma run_pattern_eq (p : string) (s : Z) :
  run_pattern p s = run_chars (process_character 2) (initial_options s) "" p.
Proof.
  unfold run_pattern. destruct p as [| c p]; [reflexivity |].
  destruct (initial_collected s) as [Hp Hw].
  exact (run_chars_depth (String.length p) 0 0 (String c p) _ "" Hp Hw).
Qed.

Lemma run_chars_extends pc :
  (forall o buf c b o' buf', pc o buf c = Some (b, o', buf') -> exists t, buf' = buf ++ t) ->
  forall p o buf b o' buf', run_chars pc o buf p = Some (b, o', buf') ->
  exists t, buf' = buf ++ t.
Proof.
  intros Hpc p. induction p as [| c p IH]; intros o buf b o' buf' H; cbn [run_chars] in H.
  - injection H as <- <- <-. exists EmptyString. symmetry. apply append_nil_r_string.
  - destruct (pc o buf c) as [[[[|] o1] b1] |] eqn:E; [| | discriminate].
    + destruct (IH _ _ _ _ _ H) as [t2 ->].
      destruct (Hpc _ _ _ _ _ _ E) as [t1 ->].
      exists (t1 ++ t2). symmetry. apply append_assoc_string.
    + injection H as <- <- <-. exact (Hpc _ _ _ _ _ _ E).
Qed.

Lemma process_token_extends (o : option_t) (buf : string) (k : ascii) :
  let '(_, buf', _) := process_token o buf k in exists t, buf' = buf ++ t.
Proof.
  unfold process_token. destruct (get_tokens k) as [| t ts].
  - destruct (capitalize_and_clear k (capitalize o)). eexists; reflexivity.
  - destruct (pick_random_element _ _) as [s' [| c rest]].
    + exists EmptyString. symmetry. apply append_nil_r_string.
    + destruct (capitalize_and_clear c _). eexists; reflexivity.
Qed.

Lemma process_character_extends (d : nat) :
  forall o buf c b o' buf', process_character d o buf c = Some (b, o', buf') ->
  exists t, buf' = buf ++ t.
Proof.
  induction d as [| d IH]; intros o buf c b o' buf' H; [discriminate |].
  assert (Hnil : exists t, buf = buf ++ t)
    by (exists EmptyString; symmetry; apply append_nil_r_string).
  cbn [process_character] in H.
  destruct (Ascii.eqb c "("); [injection H as _ _ <-; exact Hnil |].
  destruct (Ascii.eqb c ")"); [injection H as _ _ <-; exact Hnil |].
  destruct (Ascii.eqb c "<"); [injection H as _ _ <-; exact Hnil |].
  destruct (Ascii.eqb c "|"); [injection H as _ _ <-; exact Hnil |].
  destruct (Ascii.eqb c ">").
  - destruct (options _) as [| x xs]; [injection H as _ _ <-; exact Hnil |].
    destruct (get_rand _ _ _) as [s' idx].
    destruct (run_chars _ _ _ _) as [[[[|] o3] b3] |] eqn:E; try discriminate;
      injection H as _ _ <-; exact (run_chars_extends _ IH _ _ _ _ _ _ E).
  - destruct (Ascii.eqb c "!"); [injection H as _ _ <-; exact Hnil |].
    destruct (inside_group o); [injection H as _ _ <-; exact Hnil |].
    destruct (emit_literal o).
    + destruct (capitalize_and_clear c _). injection H as _ _ <-.
      eexists; reflexivity.
    + pose proof (process_token_extends o buf c) as Ht.
      destruct (process_token o buf c) as [[o1 b1] r]. injection H as _ _ <-. exact Ht.
Qed.

(** The loop of [generate] on [p ++ q] first runs [p]; the buffer only
    grows after that. *)
Lemma generate_prefix_eval (p q : string) (s : Z) :
  exists out t, generate p s = Some out /\ generate (p ++ q) s = Some (out ++ t).
Proof.
  unfold generate. rewrite !run_pattern_eq, run_chars_app.
  destruct (initial_collected s) as [Hp Hw].
  destruct (run_chars_steps 0 0 p _ "" Hp Hw) as (o & b & Hr & Hp' & Hw').
  rewrite Hr.
  destruct (run_chars_steps 0 _ q o b Hp' Hw') as (o2 & b2 & Hr2 & _ & _).
  rewrite Hr2. destruct (run_chars_extends _ (process_character_extends 2) _ _ _ _ _ _ Hr2)
    as [t ->].
  exists b, t. split; reflexivity.
Qed.

(** Inside a group every character but ['>'] leaves the buffer alone and
    keeps the group open. *)
Lemma process_character_in_group (d : nat) (o : option_t) (buf : string) (c : ascii) :
  inside_group o = true -> Ascii.eqb c ">" = false ->
  exists o', process_character (S d) o buf c = Some (true, o', buf) /\ inside_group o' = true.
Proof.
  intros Hg Hc. cbn [process_character]. rewrite Hg, Hc.
  repeat match goal with
         | |- context [if Ascii.eqb c ?x then _ else _] => destruct (Ascii.eqb c x)
         end;
    eexists; (split; [reflexivity | simpl; first [exact Hg | reflexivity]]).
Qed.

Lemma run_in_group (d : nat) (q : string) (o : option_t) (buf : string) :
  inside_group o = true -> has_close q = false ->
  exists o', run_chars (process_character (S d)) o buf q = Some (true, o', buf) /\
    inside_group o' = true.
Proof.
  revert o. induction q as [| c q IH]; intros o Hg Hq; cbn [run_chars has_close] in *;
    [eauto |].
  apply orb_false_iff in Hq as [Hc Hq].
  destruct (process_character_in_group d o buf c Hg Hc) as (o1 & -> & Hg1).
  exact (IH o1 Hg1 Hq).
Qed.

(** A group that is never closed emits nothing. *)
Lemma generate_unclosed_eval (p q : string) (s : Z) :
  has_close q = false -> generate (p ++ String "<" q) s = generate p s.
Proof.
  intros Hq. unfold generate. rewrite !run_pattern_eq, run_chars_app.
  destruct (run_chars (process_character 2) (initial_options s) "" p)
    as [[[[|] o] b] |]; [| reflexivity | reflexivity].
  rewrite run_chars_cons, process_character_lt. cbv beta iota.
  destruct (run_in_group 1 q (set_current_option (set_options (set_inside_group o true) []) "")
              b eq_refl Hq) as (o' & -> & _).
  reflexivity.
Qed.

(** Inside a group a plain string is appended to the current alternative. *)
Lemma run_group_plain (d : nat) (w : string) (o : option_t) (buf : string) :
  plain w = true -> inside_group o = true ->
  run_chars (process_character (S d)) o buf w =
  Some (true, set_current_option o (current_option o ++ w), buf).
Proof.
  revert o. induction w as [| c w IH]; intros o Hp Hg; cbn [run_chars plain] in *.
  - rewrite append_nil_r_string. destruct o; reflexivity.
  - apply andb_true_iff in Hp as [Hc Hw]. apply negb_true_iff in Hc.
    rewrite (process_character_default d o buf c Hc), Hg.
    rewrite IH by assumption. destruct o as [c1 e1 g1 s1 cur1 os1]. simpl.
    unfold push_back. rewrite <- append_assoc_string. reflexivity.
Qed.

(** The alternatives of a group, separated by ['|'], are collected in order;
    the last one is the current alternative. *)
Lemma run_alternatives (d : nat) (ws : list string) (o : option_t) (buf : string) :
  ws <> [] -> Forall (fun w => plain w = true) ws ->
  inside_group o = true -> current_option o = "" ->
  run_chars (process_character (S d)) o buf (String.concat "|" ws) =
  Some (true, set_current_option (set_options o (options o ++ removelast ws)) (last ws ""), buf).
Proof.
  revert o. induction ws as [| w ws IH]; intros o Hne Hp Hg Hc; [congruence |].
  inversion Hp as [| ? ? Hw Hws]; subst.
  destruct ws as [| w' ws].
  - simpl String.concat. rewrite run_group_plain by assumption.
    destruct o as [c1 e1 g1 s1 cur1 os1]; simpl in *; subst.
    rewrite app_nil_r. reflexivity.
  - change (String.concat "|" (w :: w' :: ws))
      with (w ++ String "|" (String.concat "|" (w' :: ws))).
    rewrite run_chars_app, run_group_plain by assumption.
    rewrite run_chars_cons, process_character_pipe. cbv beta iota.
    rewrite IH; [| discriminate | exact Hws | exact Hg | reflexivity].
    destruct o as [c1 e1 g1 s1 cur1 os1]; simpl in *; subst.
    rewrite <- app_assoc. reflexivity.
Qed.

Lemma process_token_options (o : option_t) (buf : string) (k : ascii) (l : list string) :
  process_token (set_options o l) buf k =
  let '(o', buf', r) := process_token o buf k in (set_options o' l, buf', r).
Proof.
  destruct o as [c1 e1 g1 s1 cur1 os1]. unfold process_token. simpl.
  destruct (get_tokens k) as [| t ts].
  - destruct (capitalize_and_clear k c1). reflexivity.
  - destruct (pick_random_element s1 (t :: ts)) as [s' [| c rest]]; [reflexivity |].
    destruct (capitalize_and_clear c c1). reflexivity.
Qed.

(** Outside a group the collected alternatives play no part in processing
    a plain string. *)
Lemma run_plain_options (d : nat) (w : string) (o : option_t) (buf : string) (l : list string) :
  plain w = true -> inside_group o = false ->
  run_chars (process_character (S d)) (set_options o l) buf w =
  match run_chars (process_character (S d)) o buf w with
  | Some (r, o', b) => Some (r, set_options o' l, b)
  | None => None
  end.
Proof.
  revert o buf. induction w as [| c w IH]; intros o buf Hp Hg; cbn [run_chars plain] in *.
  - destruct o; reflexivity.
  - apply andb_true_iff in Hp as [Hc Hw]. apply negb_true_iff in Hc.
    rewrite !(process_character_default d _ buf c Hc). cbn [inside_group set_options].
    rewrite Hg. destruct o as [c1 e1 g1 s1 cur1 os1]; simpl in Hg; subst. simpl.
    destruct e1.
    + destruct (capitalize_and_clear c c1) as [ch cap].
      exact (IH (mk_option cap true false s1 cur1 os1) _ Hw eq_refl).
    + rewrite (process_token_options (mk_option c1 false false s1 cur1 os1) buf c l).
      pose proof (process_token_structure (mk_option c1 false false s1 cur1 os1) buf c) as Hs.
      destruct (process_token _ buf c) as [[o1 b1] r].
      destruct Hs as (A & _). apply IH; [exact Hw | exact A].
Qed.

(** A closed group of plain alternatives runs the alternative [get_rand]
    picks, as [generate] runs it from the seed [get_rand] leaves. *)
Lemma group_choice_eval (ws : list string) (s : Z) :
  ws <> [] -> Forall (fun w => plain w = true) ws ->
  let '(s', idx) := get_rand s 0 (Z.of_nat (List.length ws) - 1) in
  generate (String "<" (String.concat "|" ws ++ ">")) s = generate (nth (Z.to_nat idx) ws "") s'.
Proof.
  intros Hne Hp. destruct ws as [| w0 ws0]; [congruence |].
  unfold generate. rewrite !run_pattern_eq.
  rewrite run_chars_cons, process_character_lt. cbv beta iota.
  rewrite run_chars_app, run_alternatives by (assumption || reflexivity).
  rewrite run_chars_cons, process_character_close. cbv zeta.
  cbv beta iota delta [set_capitalize set_emit_literal set_inside_group set_seed
    set_current_option set_options initial_options capitalize emit_literal
    inside_group seed current_option options].
  cbn [app].
  rewrite <- (app_removelast_last "" Hne).
  destruct (get_rand s 0 _) as [s' idx].
  assert (Hw : plain (nth (Z.to_nat idx) (w0 :: ws0) "") = true).
  { apply plain_nth. apply forallb_forall. intros x Hx.
    rewrite Forall_forall in Hp. exact (Hp x Hx). }
  rewrite (run_plain_depth 0 1 _ _ _ Hw).
  change (mk_option false false false s' "" (w0 :: ws0))
    with (set_options (initial_options s') (w0 :: ws0)).
  rewrite (run_plain_options 1 _ (initial_options s') _ _ Hw eq_refl), run_pattern_eq.
  destruct (run_plain 1 _ (initial_options s') "" Hw eq_refl) as (o3 & b3 & -> & _).
  reflexivity.
Qed.

Lemma result_rel_refl (x : option (bool * option_t * string)) : result_rel x x.
Proof.
  destruct x as [[[r o] b] |]; simpl; [| exact I].
  repeat split; intros; reflexivity.
Qed.

(** The seed only matters through the draws of [get_rand]. *)
Lemma process_character_seed (d : nat) (o1 o2 : option_t) (buf : string) (c : ascii) :
  seed_rel o1 o2 -> result_rel (process_character d o1 buf c) (process_character d o2 buf c).
Proof.
  intros [He Hs]. destruct d as [| d]; [exact I |].
  destruct o1 as [c1 e1 g1 s1 cur1 os1], o2 as [c2 e2 g2 s2 cur2 os2].
  injection He as -> -> -> -> ->. simpl in Hs.
  cbn [process_character].
  destruct (Ascii.eqb c "(");
    [destruct g2; simpl; (split; [reflexivity | split; [reflexivity | exact (conj eq_refl Hs)]]) |].
  destruct (Ascii.eqb c ")");
    [destruct g2; simpl; (split; [reflexivity | split; [reflexivity | exact (conj eq_refl Hs)]]) |].
  destruct (Ascii.eqb c "<");
    [simpl; (split; [reflexivity | split; [reflexivity | exact (conj eq_refl Hs)]]) |].
  destruct (Ascii.eqb c "|");
    [simpl; (split; [reflexivity | split; [reflexivity | exact (conj eq_refl Hs)]]) |].
  destruct (Ascii.eqb c ">").
  - cbn [options current_option set_current_option set_options set_inside_group seed].
    destruct ((os2 ++ [cur2])%list) as [| x xs];
      [simpl; (split; [reflexivity | split; [reflexivity | exact (conj eq_refl Hs)]]) |].
    rewrite Hs. apply result_rel_refl.
  - destruct (Ascii.eqb c "!");
      [simpl; (split; [reflexivity | split; [reflexivity | exact (conj eq_refl Hs)]]) |].
    cbn [inside_group emit_literal capitalize].
    destruct g2; [simpl; (split; [reflexivity | split; [reflexivity | exact (conj eq_refl Hs)]]) |].
    destruct e2.
    + destruct (capitalize_and_clear c c2).
      simpl; (split; [reflexivity | split; [reflexivity | exact (conj eq_refl Hs)]]).
    + unfold process_token, pick_random_element. cbn [seed capitalize].
      destruct (get_tokens c) as [| t ts].
      * destruct (capitalize_and_clear c c2).
        simpl; (split; [reflexivity | split; [reflexivity | exact (conj eq_refl Hs)]]).
      * rewrite Hs. destruct (get_rand s2 _ _) as [s' i].
        destruct (nth _ _ _) as [| ch rest]; [apply result_rel_refl |].
        destruct (capitalize_and_clear ch c2). apply result_rel_refl.
Qed.

Lemma run_chars_seed pc :
  (forall o1 o2 buf c, seed_rel o1 o2 -> result_rel (pc o1 buf c) (pc o2 buf c)) ->
  forall p o1 o2 buf, seed_rel o1 o2 ->
  result_rel (run_chars pc o1 buf p) (run_chars pc o2 buf p).
Proof.
  intros Hpc p. induction p as [| c p IH]; intros o1 o2 buf Hr; cbn [run_chars].
  - simpl. auto.
  - specialize (Hpc o1 o2 buf c Hr).
    destruct (pc o1 buf c) as [[[r1 o1'] b1] |], (pc o2 buf c) as [[[r2 o2'] b2] |];
      simpl in Hpc; try contradiction; [| exact I].
    destruct Hpc as (-> & -> & Hr'). destruct r2; [apply IH; exact Hr' |].
    simpl. auto.
Qed.

Lemma generate_seed_eval (p : string) (s1 s2 : Z) :
  (forall min max, get_rand s1 min max = get_rand s2 min max) ->
  generate p s1 = generate p s2.
Proof.
  intros Hs. unfold generate, run_pattern.
  assert (Hr : seed_rel (initial_options s1) (initial_options s2))
    by (split; [reflexivity | exact Hs]).
  pose proof (run_chars_seed _ (fun o1 o2 buf c => process_character_seed
                (S (String.length p)) o1 o2 buf c) p _ _ "" Hr) as H.
  destruct (run_chars _ (initial_options s1) _ _) as [[[r1 o1] b1] |],
           (run_chars _ (initial_options s2) _ _) as [[[r2 o2] b2] |];
    simpl in H; try contradiction; [| reflexivity].
  destruct H as (-> & -> & _). reflexivity.
Qed.

(** ['!'] capitalizes the next character emitted and only that one. *)
Lemma bang_literal_eval (c : ascii) (w : string) (s : Z) :
  plain (String c w) = true ->
  generate (String "!" (String "(" (String c w ++ ")"))) s = Some (String (toupper c) w).
Proof.
  intros Hp. cbn [plain] in Hp. apply andb_true_iff in Hp as [Hc Hw].
  apply negb_true_iff in Hc.
  unfold generate. rewrite run_pattern_eq.
  rewrite run_chars_cons, process_character_bang. cbv beta iota.
  rewrite run_chars_cons, process_character_open_paren. cbv beta iota.
  cbn [append]. rewrite run_chars_cons, (process_character_default 1 _ _ c Hc).
  cbv beta iota delta [initial_options set_capitalize set_emit_literal capitalize_and_clear
    capitalize emit_literal inside_group seed current_option options].
  rewrite run_chars_app.
  destruct (run_literal 1 w (mk_option false true false s "" []) (push_back "" (toupper c))
              Hw eq_refl eq_refl eq_refl) as (o' & Hr & (A & _)).
  rewrite Hr, run_chars_cons, process_character_close_paren, A. cbn [inside_group].
  rewrite run_chars_nil. reflexivity.
Qed.

End Interpreter.

(** Every token of the categories ['c'] and ['v'] is one character long. *)
Lemma cv_tokens_single :
  forallb (fun t => String.length t =? 1)%nat (get_tokens "c" ++ get_tokens "v") = true.
Proof. reflexivity. Qed.

(** ** Claims

    The program is the interpreter above with the random source of
    libstdc++, [MinStd.get_rand]. *)

(** C1 (determinism): two runs of [generate p s] with the same pattern and
    the same seed return the same string, the one [generate] computes; the
    token table is the constant [get_tokens]. *)
Theorem generate_deterministic (p : string) (s : Z) (out1 out2 : string) :
  runs MinStd.get_rand p s out1 -> runs MinStd.get_rand p s out2 ->
  out1 = out2 /\ generate MinStd.get_rand p s = Some out1.
Proof.
  intros H1 H2. split.
  - exact (exec_deterministic _ _ _ _ _ _ _ H1 H2).
  - exact (runs_generate _ _ _ _ H1).
Qed.

Lemma generate_deterministic_witness :
  runs MinStd.get_rand "!(foo)" 7 "Foo" /\
  ("Foo" = "Foo" /\ generate MinStd.get_rand "!(foo)" 7 = Some "Foo").
Proof.
  assert (H : runs MinStd.get_rand "!(foo)" 7 "Foo").
  { unfold runs. repeat (eapply exec_ok; [reflexivity |]). apply exec_done. }
  split; [exact H |]. exact (generate_deterministic "!(foo)" 7 "Foo" "Foo" H H).
Defined.

(** C2, counterexample: on ["(a>"] [generate] takes no failure path
    ([process_character] returns 1 throughout) and returns the partial
    name ["a"]. *)
Lemma malformed_patterns_counterexample :
  (exists o, run_pattern MinStd.get_rand "(a>" 0 = Some (true, o, "a")) /\
  generate MinStd.get_rand "(a>" 0 = Some "a".
Proof. split; [eexists; reflexivity | reflexivity]. Qed.

(** C2, amended: [generate] has no error status and never takes its
    failure path; on the malformed patterns ["<a)"], ["(a>"], [")"],
    [">"] and ["<a"] it returns [""], ["a"], [""], [""] and [""] for every
    seed. *)
Theorem malformed_patterns_no_error (s : Z) :
  (forall p, exists o buf, run_pattern MinStd.get_rand p s = Some (true, o, buf)) /\
  generate MinStd.get_rand "<a)" s = Some "" /\ generate MinStd.get_rand "(a>" s = Some "a" /\
  generate MinStd.get_rand ")" s = Some "" /\ generate MinStd.get_rand ">" s = Some "" /\
  generate MinStd.get_rand "<a" s = Some "".
Proof.
  split.
  - intros p. destruct (run_pattern_succeeds MinStd.get_rand p s) as (o & b & H & _). eauto.
  - exact (malformed_eval MinStd.get_rand MinStdFacts.get_rand_range s).
Qed.

(** C3, counterexample: no nesting depth makes [generate] take its failure
    path: [opens (S cap)] is nested [S cap] deep and runs to the end. *)
Lemma depth_cap_counterexample :
  ~ (exists cap : nat, forall p s, (cap < nesting_depth p)%nat ->
       exists o buf, run_pattern MinStd.get_rand p s = Some (false, o, buf)).
Proof.
  intros [cap H].
  destruct (H (opens (S cap)) 0) as (o & b & Hf).
  - unfold nesting_depth. rewrite depth_from_opens. lia.
  - destruct (run_pattern_succeeds MinStd.get_rand (opens (S cap)) 0) as (o' & b' & Hs & _).
    congruence.
Qed.

(** C3, amended: there is no nesting-depth cap and no [TooDeep] status:
    for every pattern and seed [generate] runs to the end of the pattern
    without taking its failure path, whatever the nesting depth; [n]
    unclosed ['<'] give the empty string. *)
Theorem no_nesting_depth_cap :
  (forall p s, exists o buf, run_pattern MinStd.get_rand p s = Some (true, o, buf) /\
                             generate MinStd.get_rand p s = Some buf) /\
  (forall n s, nesting_depth (opens n) = n /\ generate MinStd.get_rand (opens n) s = Some "").
Proof.
  split; [exact (run_pattern_succeeds MinStd.get_rand) |].
  intros n s. split; [apply depth_from_opens |].
  unfold generate, run_pattern.
  destruct (run_opens MinStd.get_rand n (String.length (opens n)) (initial_options s) "")
    as [o ->].
  reflexivity.
Qed.

(** C4: [generate] terminates on every pattern and seed within the
    recursion bound [S (length pattern)]; and at every ['>'] of the pattern
    the alternatives collected so far, among which the one re-processed is
    chosen, are strictly shorter than the pattern. *)
Theorem generate_terminates (p : string) (s : Z) :
  (exists out, generate MinStd.get_rand p s = Some out) /\
  (forall q r, p = q ++ String ">" r ->
     exists o buf,
       run_chars (process_character MinStd.get_rand (S (String.length p)))
                 (initial_options s) "" q = Some (true, o, buf) /\
       Forall (fun x => (String.length x < String.length p)%nat)
              (options o ++ [current_option o])).
Proof.
  split.
  - destruct (run_pattern_succeeds MinStd.get_rand p s) as (o & b & _ & H). eauto.
  - intros q r ->. rewrite string_length_append. simpl.
    rewrite <- plus_n_Sm.
    destruct (initial_collected s) as [Hp Hw].
    destruct (run_chars_steps MinStd.get_rand (String.length q + String.length r) 0 q _ ""
                Hp Hw) as (o & b & Hr & _ & [H1 H2]).
    exists o, b. split; [exact Hr |]. simpl in H1.
    apply Forall_app. split.
    + eapply Forall_impl; [| exact H2]. intros x Hx. simpl in Hx. lia.
    + constructor; [lia | constructor].
Qed.

Lemma generate_terminates_witness :
  "<a|b>c" = "<a|b" ++ String ">" "c" /\
  exists o buf,
    run_chars (process_character MinStd.get_rand (S (String.length "<a|b>c")))
              (initial_options 5) "" "<a|b" = Some (true, o, buf) /\
    Forall (fun x => (String.length x < String.length "<a|b>c")%nat)
           (options o ++ [current_option o]).
Proof.
  split; [reflexivity |].
  exact (proj2 (generate_terminates "<a|b>c" 5) "<a|b" "c" eq_refl).
Defined.

(** C5, counterexample: a ['<'] inside a group discards the alternatives
    the outer group has collected: after ["<a|"] the alternatives are
    [["a"]], after ["<a|<"] there are none, and ["<a|<b>>"] gives ["b"]. *)
Lemma nested_group_counterexample :
  run_chars (process_character MinStd.get_rand 8) (initial_options 0) "" "<a|" =
    Some (true, mk_option false false true 0 "" ["a"], "") /\
  run_chars (process_character MinStd.get_rand 8) (initial_options 0) "" "<a|<" =
    Some (true, mk_option false false true 0 "" [], "") /\
  generate MinStd.get_rand "<a|<b>>" 0 = Some "b".
Proof. split; [reflexivity | split; [reflexivity |]]. vm_compute. reflexivity. Qed.

(** C5, amended: opening a group inside a group is accepted, but it does
    not nest: ['<'] empties the alternatives collected so far and the
    current alternative, and the first ['>'] closes the group; so
    ["<a|<b>>"] gives ["b"] for every seed. *)
Theorem nested_group_resets :
  (forall d o buf,
     process_character MinStd.get_rand (S d) o buf "<" =
     Some (true, set_current_option (set_options (set_inside_group o true) []) "", buf)) /\
  (forall s, generate MinStd.get_rand "<a|<b>>" s = Some "b").
Proof.
  split.
  - intros d o buf. apply process_character_lt.
  - exact (nested_group_eval MinStd.get_rand MinStdFacts.get_rand_range).
Qed.

(** C6: ["!(foo)"] gives ["Foo"] for every seed, and the output of ["!s"]
    starts with an upper-case letter whatever syllable of ['s'] is drawn. *)
Theorem capitalization (s : Z) :
  generate MinStd.get_rand "!(foo)" s = Some "Foo" /\
  exists c rest, generate MinStd.get_rand "!s" s = Some (String c rest) /\ is_upper c = true.
Proof.
  split.
  - apply bang_foo_eval.
  - exact (bang_s_eval MinStd.get_rand MinStdFacts.get_rand_range s).
Qed.

(** C7: for every seed ["<c|v|>"] gives a token of ['c'], a token of ['v']
    or the empty string, and at most one character. *)
Theorem empty_alternative (s : Z) :
  exists out, generate MinStd.get_rand "<c|v|>" s = Some out /\
    (In out (get_tokens "c") \/ In out (get_tokens "v") \/ out = "") /\
    (String.length out <= 1)%nat.
Proof.
  destruct (empty_alternative_eval MinStd.get_rand MinStdFacts.get_rand_range s)
    as (out & Hg & Hin).
  exists out. split; [exact Hg |]. split; [exact Hin |].
  pose proof cv_tokens_single as Hl. rewrite forallb_forall in Hl.
  destruct Hin as [H | [H | ->]]; [| | simpl; lia].
  all: specialize (Hl out ltac:(apply in_or_app; tauto)); apply Nat.eqb_eq in Hl; lia.
Qed.

(** C8: for every seed ["(hello)"] gives ["hello"]; more generally a word
    free of the pattern's special characters, between ['('] and [')'], is
    copied verbatim. *)
Theorem literal_passthrough (s : Z) :
  generate MinStd.get_rand "(hello)" s = Some "hello" /\
  (forall w, plain w = true -> generate MinStd.get_rand (String "(" (w ++ ")")) s = Some w).
Proof.
  split.
  - exact (literal_eval MinStd.get_rand "hello" s eq_refl).
  - intros w Hp. exact (literal_eval MinStd.get_rand w s Hp).
Qed.

Lemma literal_passthrough_witness :
  plain "abc" = true /\ generate MinStd.get_rand (String "(" ("abc" ++ ")")) 3 = Some "abc".
Proof.
  split; [reflexivity |].
  exact (proj2 (literal_passthrough 3) "abc" eq_refl).
Defined.

(** C9: a character that is not one of the pattern's special characters
    ['('], [')'], ['<'], ['|'], ['>'], ['!'] and has no category in the
    token table (such as ['x']) is emitted as itself, for every seed. *)
Theorem unknown_key_literal (k : ascii) (s : Z) :
  get_tokens k = [] -> special k = false ->
  generate MinStd.get_rand (String k EmptyString) s = Some (String k EmptyString).
Proof. apply unknown_key_eval. Qed.

Lemma unknown_key_literal_witness :
  get_tokens "x" = [] /\ special "x" = false /\
  generate MinStd.get_rand "x" 1 = Some "x".
Proof.
  split; [reflexivity | split; [reflexivity |]].
  exact (unknown_key_literal "x" 1 eq_refl eq_refl).
Defined.

(** C10, counterexample: in ["(<(C)>)"] the alternative ["C"] is emitted
    verbatim, in the literal mode of the outer ['('], not substituted from
    the category ['C'] (which does not hold ["C"]). *)
Lemma group_parens_counterexample :
  generate MinStd.get_rand "(<(C)>)" 0 = Some "C" /\ ~ In "C" (get_tokens "C").
Proof.
  split; [vm_compute; reflexivity |].
  intros H. apply (proj1 (forallb_forall (fun t => negb (String.eqb t "C")) _)) in H;
    [discriminate | reflexivity].
Qed.

(** C10, amended: inside a group ['('] and [')'] leave the state unchanged,
    so they are neither emitted nor collected, and ["<(C!i)|(v!M)>"] gives
    the same as ["<C!i|v!M>"]; the chosen alternative is run in the literal
    mode in force at the ['>'], which ['('] outside the group sets: for
    every seed ["(<(C)>)"] gives ["C"]. *)
Theorem group_parens_ignored (d : nat) (o : option_t) (buf : string) :
  inside_group o = true ->
  process_character MinStd.get_rand (S d) o buf "(" = Some (true, o, buf) /\
  process_character MinStd.get_rand (S d) o buf ")" = Some (true, o, buf) /\
  (forall s, generate MinStd.get_rand "<(C!i)|(v!M)>" s = generate MinStd.get_rand "<C!i|v!M>" s) /\
  (forall s, generate MinStd.get_rand "(<(C)>)" s = Some "C").
Proof.
  intros Hg. split; [| split; [| split]].
  - rewrite process_character_open_paren, Hg. reflexivity.
  - rewrite process_character_close_paren, Hg. reflexivity.
  - exact (group_parens_eval MinStd.get_rand MinStdFacts.get_rand_range).
  - exact (group_in_literal_eval MinStd.get_rand MinStdFacts.get_rand_range).
Qed.

Lemma group_parens_ignored_witness :
  inside_group (mk_option false false true 0 "" []) = true /\
  process_character MinStd.get_rand 1 (mk_option false false true 0 "" []) "" "(" =
    Some (true, mk_option false false true 0 "" [], "").
Proof.
  split; [reflexivity |].
  exact (proj1 (group_parens_ignored 0 (mk_option false false true 0 "" []) "" eq_refl)).
Defined.

(** ** Further properties of the program *)

(** [get_rand(seed, 0, n)] draws in [[0, n]] for every [n] of [size_t], and
    the seed it leaves behind, the engine's first output, lies in
    [[1, 2^31 - 2]]: it is never 0. *)
Theorem get_rand_bounds (s n : Z) :
  0 <= n < MinStd.word ->
  0 <= snd (MinStd.get_rand s 0 n) <= n /\ 1 <= fst (MinStd.get_rand s 0 n) < MinStd.m.
Proof.
  intros Hn. split; [exact (MinStdFacts.get_rand_range s n Hn) |].
  unfold MinStd.get_rand.
  pose proof (MinStdFacts.next_range _ (MinStdFacts.seed_state_range s)) as Hx.
  destruct (MinStd.uniform _ _ _). exact Hx.
Qed.

Lemma get_rand_bounds_witness :
  0 <= 5 < MinStd.word /\
  (0 <= snd (MinStd.get_rand 42 0 5) <= 5 /\ 1 <= fst (MinStd.get_rand 42 0 5) < MinStd.m).
Proof.
  split; [unfold MinStd.word; lia |]. apply get_rand_bounds. unfold MinStd.word; lia.
Defined.

(** [pick_random_element] returns an element of every non-empty list of
    tokens (of at most [2^64] elements). *)
Theorem pick_random_element_member (s : Z) (tokens : list string) :
  tokens <> [] -> Z.of_nat (List.length tokens) <= MinStd.word ->
  In (snd (pick_random_element MinStd.get_rand s tokens)) tokens.
Proof.
  intros Hne Hlen. unfold pick_random_element.
  assert (Hl : (0 < List.length tokens)%nat) by (destruct tokens; simpl; [congruence | lia]).
  pose proof (MinStdFacts.get_rand_range s (Z.of_nat (List.length tokens) - 1)
                ltac:(lia)) as Hr.
  destruct (MinStd.get_rand _ _ _) as [s' i]. simpl in *.
  apply nth_In. lia.
Qed.

Lemma pick_random_element_member_witness :
  ["ab"; "cd"; "ef"] <> [] /\ Z.of_nat (List.length ["ab"; "cd"; "ef"]) <= MinStd.word /\
  In (snd (pick_random_element MinStd.get_rand 9 ["ab"; "cd"; "ef"])) ["ab"; "cd"; "ef"].
Proof.
  split; [discriminate | split; [unfold MinStd.word; simpl; lia |]].
  apply pick_random_element_member; [discriminate | unfold MinStd.word; simpl; lia].
Defined.

(** Every token of the built-in table is non-empty, so [process_token]
    never takes its [return 0] path: it returns 1 for every key and state. *)
Theorem process_token_returns_one :
  (forall k, Forall (fun t => t <> EmptyString) (get_tokens k)) /\
  (forall o buf k, snd (process_token MinStd.get_rand o buf k) = true).
Proof.
  split.
  - intros k. destruct (get_tokens_wf k) as [_ H].
    apply Forall_forall. intros t Ht. rewrite forallb_forall in H.
    specialize (H t Ht). intros ->. discriminate.
  - intros o buf k. destruct (get_tokens k) as [| t ts] eqn:Hk.
    + rewrite (process_token_none MinStd.get_rand o buf k Hk).
      destruct (capitalize_and_clear k (capitalize o)). reflexivity.
    + destruct (process_token_table MinStd.get_rand MinStdFacts.get_rand_range o buf k
                  ltac:(congruence)) as (c & rest & _ & Ht).
      destruct (process_token _ o buf k) as [[o' b'] r].
      destruct Ht as (_ & -> & _). reflexivity.
Qed.

(** For a key with a category, [process_token] appends one token of that
    category, its first character upper-cased when the capitalize flag is
    set; the flag is then cleared and the group and literal flags are kept. *)
Theorem process_token_appends_token (o : option_t) (buf : string) (k : ascii) :
  get_tokens k <> [] ->
  exists c rest, In (String c rest) (get_tokens k) /\
    let '(o', buf', _) := process_token MinStd.get_rand o buf k in
    buf' = buf ++ String (if capitalize o then toupper c else c) rest /\
    capitalize o' = false /\ inside_group o' = inside_group o /\
    emit_literal o' = emit_literal o.
Proof.
  intros Hk.
  destruct (process_token_table MinStd.get_rand MinStdFacts.get_rand_range o buf k Hk)
    as (c & rest & Hin & Ht).
  exists c, rest. split; [exact Hin |].
  destruct (process_token _ o buf k) as [[o' b'] r].
  destruct Ht as (-> & _ & A & B & C). split; [| auto].
  unfold capitalize_and_clear. destruct (capitalize o); reflexivity.
Qed.

Lemma process_token_appends_token_witness :
  get_tokens "v" <> [] /\
  exists c rest, In (String c rest) (get_tokens "v") /\
    let '(o', buf', _) := process_token MinStd.get_rand (initial_options 3) "x" "v" in
    buf' = "x" ++ String (if capitalize (initial_options 3) then toupper c else c) rest /\
    capitalize o' = false /\ inside_group o' = inside_group (initial_options 3) /\
    emit_literal o' = emit_literal (initial_options 3).
Proof.
  split; [discriminate |]. apply process_token_appends_token. discriminate.
Defined.

(** The keys with a category in the built-in table are exactly
    [s v V c B C i m M D d t T]; every other key has no tokens. *)
Theorem get_tokens_domain (k : ascii) :
  get_tokens k <> [] <->
  In k ["s"; "v"; "V"; "c"; "B"; "C"; "i"; "m"; "M"; "D"; "d"; "t"; "T"]%char.
Proof.
  unfold get_tokens.
  repeat match goal with
         | |- context [Ascii.eqb k ?x] => destruct (Ascii.eqb_spec k x) as [-> | ?]
         end;
    simpl; (split; [intros _; tauto | intros _; discriminate]) || (split; [intros H; congruence |]);
    intuition congruence.
Qed.

(** [process_character] only appends to the buffer: what is already
    emitted is never changed or removed. *)
Theorem process_character_only_appends (d : nat) (o : option_t) (buf : string) (c : ascii)
    (b : bool) (o' : option_t) (buf' : string) :
  process_character MinStd.get_rand d o buf c = Some (b, o', buf') ->
  exists t, buf' = buf ++ t.
Proof. apply process_character_extends. Qed.

Lemma process_character_only_appends_witness :
  process_character MinStd.get_rand 2 (mk_option false true false 0 "" []) "ab" "c" =
    Some (true, mk_option false true false 0 "" [], "abc") /\
  exists t, "abc" = "ab" ++ t.
Proof.
  assert (H : process_character MinStd.get_rand 2 (mk_option false true false 0 "" []) "ab" "c" =
                Some (true, mk_option false true false 0 "" [], "abc")) by reflexivity.
  split; [exact H |]. exact (process_character_only_appends _ _ _ _ _ _ _ H).
Defined.

(** The output for a pattern [p] is a prefix of the output for every
    pattern [p ++ q], with the same seed. *)
Theorem generate_prefix (p q : string) (s : Z) :
  exists out t, generate MinStd.get_rand p s = Some out /\
    generate MinStd.get_rand (p ++ q) s = Some (out ++ t).
Proof. apply generate_prefix_eval. Qed.

(** A ['<'] that is never followed by a ['>'] makes the rest of the pattern
    emit nothing: [p ++ "<" ++ q] gives what [p] gives. *)
Theorem generate_unclosed_group (p q : string) (s : Z) :
  has_close q = false ->
  generate MinStd.get_rand (p ++ String "<" q) s = generate MinStd.get_rand p s.
Proof. apply generate_unclosed_eval. Qed.

Lemma generate_unclosed_group_witness :
  has_close "c|(d)!" = false /\
  generate MinStd.get_rand ("(ab)" ++ String "<" "c|(d)!") 4 = generate MinStd.get_rand "(ab)" 4.
Proof.
  split; [reflexivity |]. apply generate_unclosed_group. reflexivity.
Defined.

(** A closed group of alternatives free of special characters gives what
    its alternative number [get_rand(seed, 0, n - 1)] gives alone, run from
    the seed [get_rand] leaves; that number is below the number [n] of
    alternatives. *)
Theorem group_choice (ws : list string) (s : Z) :
  ws <> [] -> Forall (fun w => plain w = true) ws ->
  Z.of_nat (List.length ws) <= MinStd.word ->
  let '(s', idx) := MinStd.get_rand s 0 (Z.of_nat (List.length ws) - 1) in
  generate MinStd.get_rand (String "<" (String.concat "|" ws ++ ">")) s =
    generate MinStd.get_rand (nth (Z.to_nat idx) ws "") s' /\
  (Z.to_nat idx < List.length ws)%nat.
Proof.
  intros Hne Hp Hw.
  pose proof (group_choice_eval MinStd.get_rand ws s Hne Hp) as H.
  assert (Hl : (0 < List.length ws)%nat) by (destruct ws; simpl; [congruence | lia]).
  pose proof (MinStdFacts.get_rand_range s (Z.of_nat (List.length ws) - 1) ltac:(lia)) as Hr.
  destruct (MinStd.get_rand _ _ _) as [s' idx]. split; [exact H |].
  simpl in Hr. lia.
Qed.

Lemma group_choice_witness :
  ["ab"; "c"] <> [] /\ Forall (fun w => plain w = true) ["ab"; "c"] /\
  Z.of_nat (List.length ["ab"; "c"]) <= MinStd.word /\
  let '(s', idx) := MinStd.get_rand 8 0 (Z.of_nat (List.length ["ab"; "c"]) - 1) in
  generate MinStd.get_rand (String "<" (String.concat "|" ["ab"; "c"] ++ ">")) 8 =
    generate MinStd.get_rand (nth (Z.to_nat idx) ["ab"; "c"] "") s' /\
  (Z.to_nat idx < List.length ["ab"; "c"])%nat.
Proof.
  split; [discriminate |]. split; [repeat constructor |].
  split; [unfold MinStd.word; simpl; lia |].
  apply group_choice; [discriminate | repeat constructor | unfold MinStd.word; simpl; lia].
Defined.

(** The seed acts only through the state the engine is seeded with: two
    seeds that give the same state ([seed mod (2^31 - 1)], with 1 for 0)
    give the same name for every pattern; in particular seeds 0 and 1 do. *)
Theorem generate_seed_equivalence (p : string) (s1 s2 : Z) :
  MinStd.seed_state s1 = MinStd.seed_state s2 ->
  generate MinStd.get_rand p s1 = generate MinStd.get_rand p s2.
Proof.
  intros Hs. apply generate_seed_eval. intros min max.
  unfold MinStd.get_rand. rewrite Hs. reflexivity.
Qed.

Lemma generate_seed_equivalence_witness :
  MinStd.seed_state 0 = MinStd.seed_state 1 /\
  generate MinStd.get_rand "!s<c|v>" 0 = generate MinStd.get_rand "!s<c|v>" 1.
Proof.
  split; [reflexivity |]. apply generate_seed_equivalence. reflexivity.
Defined.

(** ['!'] upper-cases the next character emitted and only that one: before
    a literal word it capitalizes the first letter and copies the rest. *)
Theorem bang_capitalizes_one (c : ascii) (w : string) (s : Z) :
  plain (String c w) = true ->
  generate MinStd.get_rand (String "!" (String "(" (String c w ++ ")"))) s =
    Some (String (toupper c) w).
Proof. apply bang_literal_eval. Qed.

Lemma bang_capitalizes_one_witness :
  plain "abc" = true /\
  generate MinStd.get_rand (String "!" (String "(" ("abc" ++ ")"))) 2 = Some "Abc".
Proof.
  split; [reflexivity |]. exact (bang_capitalizes_one "a" "bc" 2 eq_refl).
Defined.
